(** * permute.irr: the inter-rater reliability statistic and its
      permutation distribution

    A shallow embedding of [src/permute/irr.py] ([compute_ts] and
    [simulate_ts_dist]) together with the properties its specification
    states about them.

    Modelling conventions.
    - A two-dimensional [ndarray] of ratings is the list of its rows; its
      [shape] is read off the rows.  Entries are mathematical integers: the
      source fixes no dtype, and only sums and products of the entries are
      formed.
    - A float64 result is an extended rational: a finite value carries the
      exact quotient in lowest terms, and the three special values that a
      numpy division by zero produces ([inf], [-inf], [nan]) are kept apart.
      Comparisons follow IEEE 754: every comparison with [nan] is false.
    - [np.random.shuffle] is a parameter of the development: a generator
      state and a function that permutes one row and advances the state.
    - Arrays live in a store indexed by references, so that [ratings.copy()]
      allocates and the in-place shuffles of the rows of the copy are writes
      to the store. *)

From Stdlib Require Import ZArith QArith Qreduction Lia.
From stdpp Require Import base option list gmap fin_maps.

#[local] Open Scope Z_scope.

(** ** Floating-point results *)

Inductive float : Type :=
  | Fin (q : Q)
  | PInf
  | NInf
  | NaN.

(** [a / b] under [from __future__ import division], for a numpy integer
    scalar [a]: the quotient when [b] is not zero; otherwise numpy warns
    and yields [nan] for [0/0] and a signed infinity for the rest. *)
Definition truediv (a b : Z) : float :=
  if b =? 0 then
    (if a =? 0 then NaN else if 0 <? a then PInf else NInf)
  else Fin (Qred (inject_Z a / inject_Z b)).

(** [x >= y] on floats. *)
Definition fge (x y : float) : bool :=
  match x, y with
  | NaN, _ | _, NaN => false
  | PInf, _ => true
  | _, NInf => true
  | NInf, _ => false
  | Fin _, PInf => false
  | Fin p, Fin q => Qle_bool q p
  end.

(** ** Arrays *)

Abbreviation array := (list Z).
Abbreviation matrix := (list (list Z)).

(** [ratings.shape] *)
Definition shape (ratings : matrix) : nat * nat :=
  (length ratings, length (hd [] ratings)).

(** Every row of a two-dimensional array has the same length. *)
Definition rectangular (ratings : matrix) : Prop :=
  Forall (fun row => length row = (shape ratings).2) ratings.

(** Every entry is 0 or 1. *)
Definition binary (ratings : matrix) : Prop :=
  Forall (Forall (fun x => x = 0 \/ x = 1)) ratings.

Definition zeros (n : nat) : array := replicate n 0.

(** Elementwise arithmetic, with a scalar operand broadcast. *)
Definition arr_add (a b : array) : array := zip_with Z.add a b.
Definition arr_mul (a b : array) : array := zip_with Z.mul a b.
Definition arr_sub_scalar (a : array) (c : Z) : array := (fun x => x - c) <$> a.
Definition scalar_sub_arr (c : Z) (a : array) : array := (fun x => c - x) <$> a.

(** [a.sum()] of a one-dimensional array. *)
Definition arr_sum (a : array) : Z := foldr Z.add 0 a.

(** [ratings.sum(0)]: the rows added up, one total per column. *)
Definition sum0 (ratings : matrix) : array :=
  foldr arr_add (zeros (shape ratings).2) ratings.

(** ** The test statistic *)

(** [counts = y*(y-1)+(R-y)*(R-y-1)] *)
Definition counts (R : Z) (y : array) : array :=
  arr_add (arr_mul y (arr_sub_scalar y 1))
          (arr_mul (scalar_sub_arr R y) (arr_sub_scalar (scalar_sub_arr R y) 1)).

Definition compute_ts (ratings : matrix) : float :=
  let '(R, Ns) := shape ratings in
  let R := Z.of_nat R in
  let Ns := Z.of_nat Ns in
  let y := sum0 ratings in
  let counts := counts R y in
  let rho_s := truediv (arr_sum counts) (Ns * R * (R - 1)) in
  rho_s.

(** ** The statistic as the specification words it *)

(** [y_i]: the sum of column [i] across all raters. *)
Definition col_total (ratings : matrix) (i : nat) : Z :=
  foldr Z.add 0 ((fun row => nth i row 0) <$> ratings).

(** [y_i*(y_i - 1) + (R - y_i)*(R - y_i - 1)] *)
Definition concordant_pairs (R y : Z) : Z :=
  y * (y - 1) + (R - y) * (R - y - 1).

(** The sum over the items of [concordant_pairs]. *)
Definition concordant_total (ratings : matrix) : Z :=
  let '(R, N) := shape ratings in
  foldr Z.add 0
    ((fun i => concordant_pairs (Z.of_nat R) (col_total ratings i)) <$> seq 0 N).

(** [ratings[:, p]]: the columns taken in the order [p]. *)
Definition take_cols (p : list nat) (ratings : matrix) : matrix :=
  (fun row => (fun j => nth j row 0) <$> p) <$> ratings.

(** The [R] by [N] matrix with every entry 1. *)
Definition ones (R N : nat) : matrix := replicate R (replicate N 1).

(** ** Readings of the statistic *)

(** Column [i] of the matrix: what each rater said of item [i]. *)
Definition column (ratings : matrix) (i : nat) : array :=
  (fun row => nth i row 0) <$> ratings.

(** The number of pairs of raters [r < v] that gave an item the same
    rating: the inner double sum of the docstring of [compute_ts]. *)
Fixpoint agreeing_pairs (col : array) : Z :=
  match col with
  | [] => 0
  | x :: rest =>
      Z.of_nat (length (List.filter (fun z => z =? x) rest)) + agreeing_pairs rest
  end.

(** [1 - ratings]: every label turned into its opposite. *)
Definition complement (ratings : matrix) : matrix :=
  (fun row : array => (fun x => 1 - x) <$> row) <$> ratings.


(** ** The source of randomness *)

(** [np.random.shuffle(row)] reorders one row in place, drawing from the
    process-wide generator: it takes the generator state and the row and
    gives the reordered row and the next state. *)
Class RandomState := {
  rng : Type;
  shuffle : rng -> array -> array * rng
}.

(** What a shuffle is known to do: the result is a rearrangement of the
    row it was given. *)
Class ShufflePermutes `{RandomState} : Prop :=
  shuffle_permutes : forall (g : rng) (row : array), (shuffle g row).1 ≡ₚ row.

(** A generator to run the simulator on: the state is a counter and a row
    is rotated to the left by it. *)
Definition rotating : RandomState :=
  {| rng := nat; shuffle := fun g row => (rotate g row, S g) |}.

(** ** The store and the simulator's monad *)

Abbreviation loc := positive.

Inductive exn : Type :=
  | ValueError   (* np.zeros: negative dimensions are not allowed *)
  | IndexError   (* a row index out of bounds *)
  | NameError.   (* a reference to no array *)

(** The dictionary [simulate_ts_dist] returns. *)
Record bundle : Type := Bundle {
  obs_ts : float;
  geq : Z;
  iter : Z;
  dist : option (list float)
}.

Section simulator.
Context `{RS : RandomState}.

(** The state a call runs in: the arrays, the generator, and the
    arguments [compute_ts] has been called with, latest first. *)
Record world : Type := World {
  heap : gmap loc matrix;
  gen : rng;
  ts_calls : list matrix
}.

(** A computation ends in a value or in an exception; the state it
    leaves is there in both cases. *)
Definition M (A : Type) : Type := world -> (exn + A) * world.

#[global] Instance M_ret : MRet M := fun A x w => (inr x, w).

#[global] Instance M_bind : MBind M := fun A B k c w =>
  match c w with
  | (inr x, w') => k x w'
  | (inl e, w') => (inl e, w')
  end.

Definition raise {A} (e : exn) : M A := fun w => (inl e, w).

(** Reading the array a reference points to. *)
Definition load (l : loc) : M matrix := fun w =>
  match heap w !! l with
  | Some a => (inr a, w)
  | None => (inl NameError, w)
  end.

(** A new array at a reference not in use. *)
Definition alloc (a : matrix) : M loc := fun w =>
  let l := fresh (dom (heap w)) in
  (inr l, World (<[l := a]> (heap w)) (gen w) (ts_calls w)).

(** [a.copy()] *)
Definition copy (l : loc) : M loc :=
  a ← load l; alloc a.

(** [np.random.shuffle(row)] where [row] is row [k] of the array at [r]:
    the row is a view, so the array at [r] changes. *)
Definition shuffle_row (r : loc) (k : nat) : M unit := fun w =>
  match heap w !! r with
  | Some a =>
      match a !! k with
      | Some row =>
          let '(row', g') := shuffle (gen w) row in
          (inr tt, World (<[r := <[k := row']> a]> (heap w)) g' (ts_calls w))
      | None => (inl IndexError, w)
      end
  | None => (inl NameError, w)
  end.

(** [for x in xs: body], threading the local variables [s] of the loop. *)
Fixpoint for_in {A S} (xs : list A) (body : A -> S -> M S) (s : S) : M S :=
  match xs with
  | [] => mret s
  | x :: xs' => s' ← body x s; for_in xs' body s'
  end.

(** [range(n)]: empty when [n] is not positive. *)
Definition range (n : Z) : list nat := seq 0 (Z.to_nat n).

(** [for row in r: np.random.shuffle(row)] *)
Definition shuffle_rows (r : loc) : M unit :=
  a ← load r;
  for_in (seq 0 (length a)) (fun k _ => shuffle_row r k) tt.

Definition record_call (a : matrix) : M unit := fun w =>
  (inr tt, World (heap w) (gen w) (a :: ts_calls w)).

(** [compute_ts(r)], the call recorded. *)
Definition call_compute_ts (r : loc) : M float :=
  a ← load r;
  record_call a;;
  mret (compute_ts a).

(** [np.zeros(n)] *)
Definition np_zeros (n : Z) : M (list float) :=
  if n <? 0 then raise ValueError else mret (replicate (Z.to_nat n) (Fin 0)).

(** [np.sum(b)] of an array of booleans. *)
Definition sum_bool (b : list bool) : Z := foldr (fun x acc => Z.b2z x + acc) 0 b.

Definition simulate_ts_dist (ratings : loc) (obs_ts : option float)
    (iter : Z) (keep_dist : bool) : M bundle :=
  r ← copy ratings;
  obs_ts ← match obs_ts with
           | None => call_compute_ts r
           | Some v => mret v
           end;
  if keep_dist then
    dist ← np_zeros iter;
    dist ← for_in (range iter) (fun i dist =>
              shuffle_rows r;;
              v ← call_compute_ts r;
              mret (<[i := v]> dist)) dist;
    let geq := sum_bool ((fun v => fge v obs_ts) <$> dist) in
    mret (Bundle obs_ts geq iter (Some dist))
  else
    let dist := None in
    let geq := 0 in
    geq ← for_in (range iter) (fun i geq =>
              shuffle_rows r;;
              v ← call_compute_ts r;
              mret (geq + Z.b2z (fge v obs_ts))) geq;
    mret (Bundle obs_ts geq iter dist).

(** *** The loops read as functions *)

(** One pass of [for row in r: np.random.shuffle(row)] over the rows,
    the generator handed from each row to the next. *)
Fixpoint shuffle_all (g : rng) (rows : matrix) : matrix * rng :=
  match rows with
  | [] => ([], g)
  | row :: rows' =>
      let '(row', g') := shuffle g row in
      let '(rows'', g'') := shuffle_all g' rows' in
      (row' :: rows'', g'')
  end.

(** The working copy after each of [n] passes, and the generator left. *)
Fixpoint rounds (n : nat) (a : matrix) (g : rng) : list matrix * rng :=
  match n with
  | O => ([], g)
  | S n' =>
      let '(a', g') := shuffle_all g a in
      let '(states, g'') := rounds n' a' g' in
      (a' :: states, g'')
  end.

End simulator.

Arguments world : clear implicits.
Arguments world {RS}.

(** ** A run to look at *)

Definition example_ratings : matrix := [[1; 1; 0]; [1; 0; 0]; [0; 1; 0]].

Definition example_world : @world rotating :=
  @World rotating {[ 1%positive := example_ratings ]} 1%nat [].

(** A store that holds the 4 by 5 matrix of ones. *)
Definition ones_world : @world rotating :=
  @World rotating {[ 1%positive := ones 4 5 ]} 0%nat [].

(** A store that holds the ratings of a single rater. *)
Definition one_rater_world : @world rotating :=
  @World rotating {[ 1%positive := [[1; 0; 1]] ]} 0%nat [].

(** A store that holds a matrix in which no rater tells the items apart. *)
Definition constant_rows_world : @world rotating :=
  @World rotating {[ 1%positive := [[1; 1; 1]; [0; 0; 0]; [1; 1; 1]] ]} 0%nat [].

(** * Properties *)

(** ** Sums of arrays *)

Lemma arr_sum_cons (x : Z) (a : array) : arr_sum (x :: a) = x + arr_sum a.
Proof. reflexivity. Qed.

Lemma arr_sum_Permutation (a b : array) : a ≡ₚ b -> arr_sum a = arr_sum b.
Proof.
  induction 1 as [|x a b _ IH|x y a|a b c _ IHab _ IHbc].
  - reflexivity.
  - rewrite !arr_sum_cons, IH. reflexivity.
  - rewrite !arr_sum_cons. lia.
  - congruence.
Qed.

Lemma arr_sum_bounds (lo hi : Z) (a : array) :
  Forall (fun x => lo <= x <= hi) a ->
  Z.of_nat (length a) * lo <= arr_sum a <= Z.of_nat (length a) * hi.
Proof.
  induction 1 as [|x a Hx _ IH].
  - simpl. lia.
  - rewrite arr_sum_cons. cbn [length]. lia.
Qed.

(** ** Lists read by position *)

Lemma fmap_nth_seq {A B} (f : A -> B) (d : A) (l : list A) :
  (fun i => f (nth i l d)) <$> seq 0 (length l) = f <$> l.
Proof.
  induction l as [|x l IH]; [reflexivity|].
  cbn [length seq fmap list_fmap nth]. f_equal.
  rewrite <- IH, <- (fmap_S_seq 0), <- list_fmap_compose. reflexivity.
Qed.

Lemma zip_with_fmap_seq {A B C} (f : A -> B -> C) (d : A) (l : list A)
    (g : nat -> B) :
  zip_with f l (g <$> seq 0 (length l))
  = (fun i => f (nth i l d) (g i)) <$> seq 0 (length l).
Proof.
  revert g. induction l as [|x l IH]; intros g; [reflexivity|].
  cbn [length seq fmap list_fmap zip_with nth]. f_equal.
  rewrite <- !(fmap_S_seq 0), <- !list_fmap_compose.
  apply (IH (g ∘ S)).
Qed.

(** ** Column totals *)

(** [sum0] gives, at each column, the total of that column. *)
Lemma foldr_arr_add_col_total (N : nat) (ratings : matrix) :
  Forall (fun row => length row = N) ratings ->
  foldr arr_add (zeros N) ratings = col_total ratings <$> seq 0 N.
Proof.
  induction 1 as [|row rows Hrow _ IH]; simpl.
  - unfold zeros, col_total. simpl. clear.
    generalize 0%nat. induction N as [|N IH]; intros k; simpl; [done|].
    by rewrite <- IH.
  - rewrite IH. subst N. unfold arr_add.
    rewrite (zip_with_fmap_seq Z.add 0). reflexivity.
Qed.

Lemma sum0_col_total (ratings : matrix) :
  rectangular ratings ->
  sum0 ratings = col_total ratings <$> seq 0 (shape ratings).2.
Proof. apply foldr_arr_add_col_total. Qed.

Lemma counts_concordant_pairs (R : Z) (y : array) :
  counts R y = concordant_pairs R <$> y.
Proof.
  unfold counts, arr_add, arr_mul, arr_sub_scalar, scalar_sub_arr.
  induction y as [|v y IH]; [reflexivity|].
  cbn [fmap list_fmap zip_with] in *. rewrite IH. reflexivity.
Qed.

(** The statistic of a rectangular array, as a quotient of two integers. *)
Lemma compute_ts_quotient (ratings : matrix) :
  rectangular ratings ->
  compute_ts ratings
  = truediv (concordant_total ratings)
      (Z.of_nat (shape ratings).2 * Z.of_nat (shape ratings).1
       * (Z.of_nat (shape ratings).1 - 1)).
Proof.
  intros Hrect. unfold compute_ts, concordant_total.
  destruct (shape ratings) as [R N] eqn:Hshape. simpl.
  rewrite counts_concordant_pairs, sum0_col_total, Hshape by done. simpl.
  rewrite <- list_fmap_compose. reflexivity.
Qed.

(** ** Reordering raters and items *)

Lemma shape_Permutation (m m' : matrix) :
  rectangular m -> m ≡ₚ m' -> shape m' = shape m.
Proof.
  intros Hrect Hperm. unfold shape. f_equal.
  - symmetry. by apply Permutation_length.
  - destruct m' as [|row' m'].
    + apply Permutation_nil_r in Hperm. by subst m.
    + simpl. unfold rectangular in Hrect. rewrite Forall_forall in Hrect.
      apply Hrect. rewrite Hperm. left.
Qed.

Lemma rectangular_Permutation (m m' : matrix) :
  rectangular m -> m ≡ₚ m' -> rectangular m'.
Proof.
  intros Hrect Hperm. unfold rectangular.
  rewrite (shape_Permutation m m') by done.
  unfold rectangular in Hrect. by rewrite <- Hperm.
Qed.

Lemma col_total_Permutation (m m' : matrix) (i : nat) :
  m ≡ₚ m' -> col_total m' i = col_total m i.
Proof.
  intros Hperm. apply arr_sum_Permutation. by rewrite Hperm.
Qed.

Lemma concordant_total_Permutation (m m' : matrix) :
  rectangular m -> m ≡ₚ m' -> concordant_total m' = concordant_total m.
Proof.
  intros Hrect Hperm. unfold concordant_total.
  rewrite (shape_Permutation m m') by done.
  destruct (shape m) as [R N]. f_equal.
  apply list_fmap_ext. intros _ i _.
  by rewrite (col_total_Permutation m m').
Qed.

Lemma compute_ts_rows_Permutation (m m' : matrix) :
  rectangular m -> m ≡ₚ m' -> compute_ts m' = compute_ts m.
Proof.
  intros Hrect Hperm.
  rewrite !compute_ts_quotient by eauto using rectangular_Permutation.
  rewrite (shape_Permutation m m'), (concordant_total_Permutation m m') by done.
  reflexivity.
Qed.

Lemma shape_take_cols (p : list nat) (m : matrix) :
  length p = (shape m).2 -> shape (take_cols p m) = shape m.
Proof.
  intros Hlen. destruct m as [|row m]; [reflexivity|].
  unfold shape, take_cols in *. simpl in *.
  by rewrite !length_fmap, Hlen.
Qed.

Lemma rectangular_take_cols (p : list nat) (m : matrix) :
  length p = (shape m).2 -> rectangular (take_cols p m).
Proof.
  intros Hlen. unfold rectangular. rewrite shape_take_cols by done.
  unfold take_cols. rewrite Forall_fmap. apply Forall_forall. intros row _.
  simpl. by rewrite length_fmap.
Qed.

Lemma col_total_take_cols (p : list nat) (m : matrix) (i : nat) :
  (i < length p)%nat ->
  col_total (take_cols p m) i = col_total m (nth i p 0%nat).
Proof.
  intros Hi. unfold col_total, take_cols.
  rewrite <- list_fmap_compose. f_equal.
  apply list_fmap_ext. intros _ row _. simpl.
  rewrite (nth_indep _ 0 (nth 0%nat row 0)) by (by rewrite length_fmap).
  apply (map_nth (fun j => nth j row 0)).
Qed.

Lemma concordant_total_take_cols (p : list nat) (m : matrix) :
  p ≡ₚ seq 0 (shape m).2 ->
  concordant_total (take_cols p m) = concordant_total m.
Proof.
  intros Hperm.
  assert (Hlen : length p = (shape m).2)
    by (by rewrite Hperm, length_seq).
  unfold concordant_total. rewrite shape_take_cols by done.
  destruct (shape m) as [R N]. simpl in *.
  set (h := fun j => concordant_pairs (Z.of_nat R) (col_total m j)).
  transitivity (arr_sum (h <$> p)).
  - rewrite <- (fmap_nth_seq h 0%nat p), Hlen. unfold arr_sum. f_equal.
    apply list_fmap_ext. intros k i Hi.
    apply lookup_seq in Hi as [-> Hk]. unfold h. simpl.
    rewrite col_total_take_cols by lia. reflexivity.
  - apply arr_sum_Permutation. by apply fmap_Permutation.
Qed.

Lemma compute_ts_take_cols (p : list nat) (m : matrix) :
  rectangular m -> p ≡ₚ seq 0 (shape m).2 ->
  compute_ts (take_cols p m) = compute_ts m.
Proof.
  intros Hrect Hperm.
  assert (Hlen : length p = (shape m).2)
    by (by rewrite Hperm, length_seq).
  rewrite !compute_ts_quotient by eauto using rectangular_take_cols.
  rewrite shape_take_cols, concordant_total_take_cols by done.
  reflexivity.
Qed.

(** ** Bounds *)

Lemma col_total_bounds (m : matrix) (i : nat) :
  binary m -> 0 <= col_total m i <= Z.of_nat (length m).
Proof.
  unfold col_total. induction 1 as [|row m Hrow _ IH].
  - simpl. lia.
  - cbn [fmap list_fmap foldr length].
    assert (0 <= nth i row 0 <= 1); [|lia].
    destruct (nth_in_or_default i row 0) as [Hin| ->]; [|lia].
    rewrite Forall_forall in Hrow.
    apply list_elem_of_In, Hrow in Hin. lia.
Qed.

Lemma consecutive_nonneg (z : Z) : 0 <= z -> 0 <= z * (z - 1).
Proof.
  intros Hz. destruct (Z.eq_dec z 0) as [->|Hne]; [lia|].
  apply Z.mul_nonneg_nonneg; lia.
Qed.

Lemma concordant_pairs_bounds (R y : Z) :
  0 <= y <= R -> 0 <= concordant_pairs R y <= R * (R - 1).
Proof.
  unfold concordant_pairs. intros Hy.
  pose proof (consecutive_nonneg y).
  pose proof (consecutive_nonneg (R - y)).
  assert (0 <= y * (R - y)) by (apply Z.mul_nonneg_nonneg; lia).
  split; [lia|].
  replace (y * (y - 1) + (R - y) * (R - y - 1))
    with (R * (R - 1) - 2 * (y * (R - y))) by ring.
  lia.
Qed.

Lemma concordant_total_bounds (m : matrix) :
  binary m ->
  0 <= concordant_total m
    <= Z.of_nat (shape m).2 * (Z.of_nat (shape m).1 * (Z.of_nat (shape m).1 - 1)).
Proof.
  intros Hbin. unfold concordant_total, shape. simpl.
  set (R := Z.of_nat (length m)). set (N := length (hd [] m)).
  pose proof (arr_sum_bounds 0 (R * (R - 1))
    ((fun i => concordant_pairs R (col_total m i)) <$> seq 0 N)) as Hsum.
  rewrite length_fmap, length_seq in Hsum. unfold arr_sum in Hsum.
  assert (Hall : Forall (fun x => 0 <= x <= R * (R - 1))
            ((fun i => concordant_pairs R (col_total m i)) <$> seq 0 N)).
  { rewrite Forall_fmap. apply Forall_forall. intros i _. simpl.
    apply concordant_pairs_bounds, col_total_bounds, Hbin. }
  specialize (Hsum Hall). lia.
Qed.

Lemma truediv_unit_interval (a b : Z) :
  0 < b -> 0 <= a <= b ->
  exists q, truediv a b = Fin q /\ (0 <= q)%Q /\ (q <= 1)%Q.
Proof.
  intros Hb Ha. unfold truediv.
  destruct (Z.eqb_spec b 0) as [->|_]; [lia|].
  eexists; split; [reflexivity|].
  rewrite Qred_correct.
  assert (Hb' : (inject_Z 0 < inject_Z b)%Q) by (rewrite <- Zlt_Qlt; lia).
  split.
  - apply Qle_shift_div_l; [done|]. rewrite Qmult_0_l.
    change 0%Q with (inject_Z 0). rewrite <- Zle_Qle. lia.
  - apply Qle_shift_div_r; [done|]. rewrite Qmult_1_l, <- Zle_Qle. lia.
Qed.

Lemma truediv_zero (a : Z) (q : Q) : truediv a 0 <> Fin q.
Proof. unfold truediv. simpl. by repeat case_match. Qed.

Lemma binary_one_rater_total (row : array) :
  Forall (fun x => x = 0 \/ x = 1) row -> concordant_total [row] = 0.
Proof.
  intros Hrow. unfold concordant_total, shape. simpl.
  change (arr_sum ((fun i => concordant_pairs 1 (nth i row 0 + 0))
                     <$> seq 0 (length row)) = 0).
  rewrite (fmap_nth_seq (fun x => concordant_pairs 1 (x + 0)) 0 row).
  induction Hrow as [|x row Hx _ IH]; [reflexivity|].
  cbn [fmap list_fmap]. rewrite arr_sum_cons, IH.
  unfold concordant_pairs. lia.
Qed.

Lemma compute_ts_one_rater_nan (row : array) :
  Forall (fun x => x = 0 \/ x = 1) row -> compute_ts [row] = NaN.
Proof.
  intros Hrow. rewrite compute_ts_quotient by (by repeat constructor).
  rewrite binary_one_rater_total by done. unfold shape. cbn [fst snd length hd].
  replace (Z.of_nat (length row) * Z.of_nat 1 * (Z.of_nat 1 - 1)) with 0 by lia.
  reflexivity.
Qed.

(** * The claims *)

(** Closed instances of [binary] and [rectangular]. *)
Ltac closed_Forall :=
  repeat first
    [ apply Forall_nil_2 | apply Forall_cons_2
    | left; reflexivity | right; reflexivity | reflexivity ].

(** ** The statistic *)

(** C1. On a rating matrix with [R >= 2] raters and [N >= 1] items (binary
    or not), [compute_ts] returns the sum over the items [i] of
    [y_i*(y_i-1) + (R-y_i)*(R-y_i-1)], divided by [N*R*(R-1)], where [y_i]
    is the total of column [i] over the raters. *)
Theorem compute_ts_formula (ratings : matrix) (R N : nat) :
  rectangular ratings ->
  shape ratings = (R, N) ->
  (2 <= R)%nat -> (1 <= N)%nat ->
  compute_ts ratings
  = Fin (Qred (inject_Z
                 (arr_sum ((fun i =>
                    let y_i := col_total ratings i in
                    y_i * (y_i - 1) + (Z.of_nat R - y_i) * (Z.of_nat R - y_i - 1))
                    <$> seq 0 N))
               / inject_Z (Z.of_nat N * Z.of_nat R * (Z.of_nat R - 1)))).
Proof.
  intros Hrect Hshape HR HN.
  rewrite compute_ts_quotient by done.
  unfold concordant_total. rewrite Hshape. simpl.
  unfold truediv.
  destruct (Z.eqb_spec (Z.of_nat N * Z.of_nat R * (Z.of_nat R - 1)) 0) as [H0|_];
    [nia|reflexivity].
Qed.

Lemma compute_ts_formula_witness :
  compute_ts example_ratings = Fin (5 # 9).
Proof.
  rewrite (compute_ts_formula example_ratings 3 3).
  - reflexivity.
  - closed_Forall.
  - reflexivity.
  - lia.
  - lia.
Defined.

(** C2. On a binary rating matrix with [R >= 2] raters and [N >= 1] items
    the statistic is a number between 0 and 1. *)
Theorem compute_ts_unit_interval (ratings : matrix) (R N : nat) :
  rectangular ratings ->
  binary ratings ->
  shape ratings = (R, N) ->
  (2 <= R)%nat -> (1 <= N)%nat ->
  exists q, compute_ts ratings = Fin q /\ (0 <= q)%Q /\ (q <= 1)%Q.
Proof.
  intros Hrect Hbin Hshape HR HN.
  rewrite compute_ts_quotient by done.
  pose proof (concordant_total_bounds ratings Hbin) as Hb.
  rewrite Hshape in *. simpl in *.
  apply truediv_unit_interval; nia.
Qed.

Lemma compute_ts_unit_interval_witness :
  exists q, compute_ts example_ratings = Fin q /\ (0 <= q)%Q /\ (q <= 1)%Q.
Proof.
  apply (compute_ts_unit_interval example_ratings 3 3).
  - closed_Forall.
  - closed_Forall.
  - reflexivity.
  - lia.
  - lia.
Defined.

(** C4. [compute_ts] does not check the number of raters.  On a matrix of
    one row the denominator [N*R*(R-1)] is zero and the division is carried
    out all the same: the result is what dividing by zero gives, never a
    finite number; nothing is raised. *)
Theorem compute_ts_one_rater (row : array) :
  let '(R, N) := shape [row] in
  Z.of_nat N * Z.of_nat R * (Z.of_nat R - 1) = 0
  /\ compute_ts [row] = truediv (arr_sum (counts 1 (sum0 [row]))) 0
  /\ forall q, compute_ts [row] <> Fin q.
Proof.
  simpl. split; [lia|].
  assert (Heq : compute_ts [row] = truediv (arr_sum (counts 1 (sum0 [row]))) 0).
  { unfold compute_ts. simpl. f_equal. lia. }
  split; [exact Heq|].
  intros q. rewrite Heq. apply truediv_zero.
Qed.

(** C7. The statistic does not depend on the order of the raters (rows)
    nor on the order of the items (columns). *)
Theorem compute_ts_exchangeable (ratings ratings' : matrix) (p : list nat) :
  rectangular ratings ->
  ratings ≡ₚ ratings' ->
  p ≡ₚ seq 0 (shape ratings).2 ->
  compute_ts ratings' = compute_ts ratings
  /\ compute_ts (take_cols p ratings) = compute_ts ratings.
Proof.
  intros Hrect Hrows Hcols. split.
  - by apply compute_ts_rows_Permutation.
  - by apply compute_ts_take_cols.
Qed.

Lemma compute_ts_exchangeable_witness :
  compute_ts [[1; 0; 0]; [1; 1; 0]; [0; 1; 0]] = compute_ts example_ratings
  /\ compute_ts (take_cols [2; 0; 1]%nat example_ratings)
     = compute_ts example_ratings.
Proof.
  apply (compute_ts_exchangeable example_ratings
           [[1; 0; 0]; [1; 1; 0]; [0; 1; 0]] [2; 0; 1]%nat).
  - closed_Forall.
  - apply perm_swap.
  - apply (Permutation_cons_append [0; 1]%nat 2%nat).
Defined.

(** ** The simulator's monad *)

Section simulator_facts.
Context `{RS : RandomState}.

Lemma bind_ok {A B} (c : M A) (k : A -> M B) (w w' : world) (x : A) :
  c w = (inr x, w') -> (c ≫= k) w = k x w'.
Proof. intros Hc. unfold mbind, M_bind. by rewrite Hc. Qed.

Lemma bind_raise {A B} (c : M A) (k : A -> M B) (w w' : world) (e : exn) :
  c w = (inl e, w') -> (c ≫= k) w = (inl e, w').
Proof. intros Hc. unfold mbind, M_bind. by rewrite Hc. Qed.

Lemma bind_ret {A B} (x : A) (k : A -> M B) (w : world) :
  (mret x ≫= k) w = k x w.
Proof. reflexivity. Qed.

Lemma load_ok (l : loc) (a : matrix) (w : world) :
  heap w !! l = Some a -> load l w = (inr a, w).
Proof. intros Hl. unfold load. by rewrite Hl. Qed.

Lemma copy_ok (l : loc) (a : matrix) (w : world) :
  heap w !! l = Some a ->
  copy l w = (inr (fresh (dom (heap w))),
              World (<[fresh (dom (heap w)) := a]> (heap w)) (gen w) (ts_calls w)).
Proof. intros Hl. unfold copy. by rewrite (bind_ok _ _ _ _ _ (load_ok _ _ _ Hl)). Qed.

Lemma copy_unbound (l : loc) (w : world) :
  heap w !! l = None -> copy l w = (inl NameError, w).
Proof. intros Hl. unfold copy, load, mbind, M_bind. by rewrite Hl. Qed.

Lemma fresh_unbound (h : gmap loc matrix) : h !! fresh (dom h) = None.
Proof. apply not_elem_of_dom, is_fresh. Qed.

(** *** One pass over the rows *)

Lemma shuffle_all_length (g : rng) (a : matrix) :
  length (shuffle_all g a).1 = length a.
Proof.
  revert g. induction a as [|row a IH]; intros g; [reflexivity|].
  simpl. destruct (shuffle g row) as [row' g'].
  specialize (IH g'). destruct (shuffle_all g' a) as [a' g''].
  simpl in *. by rewrite IH.
Qed.

Lemma for_in_shuffle_row (r : loc) (rest done : matrix)
    (h : gmap loc matrix) (g : rng) (c : list matrix) :
  h !! r = Some (done ++ rest) ->
  for_in (seq (length done) (length rest)) (fun k _ => shuffle_row r k) tt
    (World h g c)
  = (inr tt, World (<[r := done ++ (shuffle_all g rest).1]> h)
               (shuffle_all g rest).2 c).
Proof.
  revert done h g. induction rest as [|row rest IH]; intros done h g Hr.
  - simpl. by rewrite insert_id.
  - cbn [length seq for_in].
    assert (Hstep : shuffle_row r (length done) (World h g c)
              = (inr tt, World (<[r := (done ++ [(shuffle g row).1]) ++ rest]> h)
                           (shuffle g row).2 c)).
    { unfold shuffle_row. cbn [heap gen ts_calls]. rewrite Hr, list_lookup_middle by done.
      destruct (shuffle g row) as [row' g']. simpl.
      replace (length done) with (length done + 0)%nat at 1 by lia.
      by rewrite insert_app_r, <- app_assoc. }
    rewrite (bind_ok _ _ _ _ _ Hstep).
    replace (S (length done)) with (length (done ++ [(shuffle g row).1]))
      by (rewrite length_app; simpl; lia).
    rewrite IH by apply lookup_insert_eq.
    rewrite insert_insert_eq. simpl.
    destruct (shuffle g row) as [row' g']. simpl.
    destruct (shuffle_all g' rest) as [rest' g'']. simpl.
    by rewrite <- app_assoc.
Qed.

Lemma shuffle_rows_ok (r : loc) (a : matrix) (w : world) :
  heap w !! r = Some a ->
  shuffle_rows r w
  = (inr tt, World (<[r := (shuffle_all (gen w) a).1]> (heap w))
               (shuffle_all (gen w) a).2 (ts_calls w)).
Proof.
  intros Hr. unfold shuffle_rows.
  rewrite (bind_ok _ _ _ _ _ (load_ok _ _ _ Hr)).
  destruct w as [h g c]. simpl in *.
  apply (for_in_shuffle_row r a [] h g c Hr).
Qed.

Lemma call_compute_ts_ok (r : loc) (a : matrix) (w : world) :
  heap w !! r = Some a ->
  call_compute_ts r w
  = (inr (compute_ts a), World (heap w) (gen w) (a :: ts_calls w)).
Proof.
  intros Hr. unfold call_compute_ts.
  by rewrite (bind_ok _ _ _ _ _ (load_ok _ _ _ Hr)).
Qed.

(** One iteration of either loop: shuffle every row, then take the
    statistic of the working copy. *)
Lemma round_ok {A} (r : loc) (a : matrix) (w : world) (k : float -> M A) :
  heap w !! r = Some a ->
  (shuffle_rows r;; v ← call_compute_ts r; k v) w
  = k (compute_ts (shuffle_all (gen w) a).1)
      (World (<[r := (shuffle_all (gen w) a).1]> (heap w))
         (shuffle_all (gen w) a).2
         ((shuffle_all (gen w) a).1 :: ts_calls w)).
Proof.
  intros Hr.
  rewrite (bind_ok _ _ _ _ _ (shuffle_rows_ok _ _ _ Hr)).
  rewrite (bind_ok _ _ _ _ _
             (call_compute_ts_ok r (shuffle_all (gen w) a).1 _
                (lookup_insert_eq _ _ _))).
  reflexivity.
Qed.

(** *** The two loops *)

Lemma last_state_cons (a a' : matrix) (states : list matrix) :
  default a (last (a' :: states)) = default a' (last states).
Proof.
  destruct states as [|s states]; [done|].
  rewrite last_cons_cons.
  destruct (last (s :: states)) eqn:Hlast; [done|].
  by apply last_None in Hlast.
Qed.

Lemma sum_bool_cons (b : bool) (bs : list bool) :
  sum_bool (b :: bs) = Z.b2z b + sum_bool bs.
Proof. reflexivity. Qed.

(** The world a loop of [n] iterations leaves behind. *)
Lemma for_in_discard (r : loc) (obs : float) (xs : list nat) :
  forall (a : matrix) (w : world) (geq : Z),
  heap w !! r = Some a ->
  for_in xs (fun i geq =>
      shuffle_rows r;;
      v ← call_compute_ts r;
      mret (geq + Z.b2z (fge v obs))) geq w
  = (inr (geq + sum_bool ((fun v => fge v obs)
                  <$> (compute_ts <$> (rounds (length xs) a (gen w)).1))),
     World (<[r := default a (last (rounds (length xs) a (gen w)).1)]> (heap w))
       (rounds (length xs) a (gen w)).2
       (reverse (rounds (length xs) a (gen w)).1 ++ ts_calls w)).
Proof.
  induction xs as [|x xs IH]; intros a w geq Hr.
  - destruct w as [h g c]. simpl in *.
    rewrite insert_id by done. unfold mret, M_ret. do 2 f_equal. lia.
  - cbn [for_in length rounds].
    rewrite (bind_ok _ _ _ (World (<[r := (shuffle_all (gen w) a).1]> (heap w))
               (shuffle_all (gen w) a).2
               ((shuffle_all (gen w) a).1 :: ts_calls w))
               (geq + Z.b2z (fge (compute_ts (shuffle_all (gen w) a).1) obs)))
      by exact (round_ok r a w (fun v => mret (geq + Z.b2z (fge v obs))) Hr).
    rewrite (IH (shuffle_all (gen w) a).1) by apply lookup_insert_eq.
    cbn [heap gen ts_calls].
    destruct (shuffle_all (gen w) a) as [a' g']. cbn [fst snd].
    destruct (rounds (length xs) a' g') as [states g''].
    cbn [fst snd fmap list_fmap].
    rewrite insert_insert_eq, last_state_cons, sum_bool_cons, reverse_cons,
      <- app_assoc.
    do 2 f_equal. lia.
Qed.

Lemma for_in_keep (r : loc) (n : nat) :
  forall (pre tail : list float) (a : matrix) (w : world),
  heap w !! r = Some a ->
  length tail = n ->
  for_in (seq (length pre) n) (fun i dist =>
      shuffle_rows r;;
      v ← call_compute_ts r;
      mret (<[i := v]> dist)) (pre ++ tail) w
  = (inr (pre ++ (compute_ts <$> (rounds n a (gen w)).1)),
     World (<[r := default a (last (rounds n a (gen w)).1)]> (heap w))
       (rounds n a (gen w)).2
       (reverse (rounds n a (gen w)).1 ++ ts_calls w)).
Proof.
  induction n as [|n IH]; intros pre tail a w Hr Htail.
  - destruct w as [h g c]. destruct tail; [|done]. simpl in *.
    by rewrite insert_id.
  - destruct tail as [|t tail]; [done|].
    cbn [for_in seq rounds].
    rewrite (bind_ok _ _ _ (World (<[r := (shuffle_all (gen w) a).1]> (heap w))
               (shuffle_all (gen w) a).2
               ((shuffle_all (gen w) a).1 :: ts_calls w))
               ((pre ++ [compute_ts (shuffle_all (gen w) a).1]) ++ tail)).
    2:{ rewrite (round_ok r a w
                   (fun v => mret (<[length pre := v]> (pre ++ t :: tail))) Hr).
        unfold mret, M_ret. do 2 f_equal.
        replace (length pre) with (length pre + 0)%nat at 1 by lia.
        by rewrite insert_app_r, <- app_assoc. }
    replace (S (length pre))
      with (length (pre ++ [compute_ts (shuffle_all (gen w) a).1]))
      by (rewrite length_app; simpl; lia).
    rewrite (IH _ tail (shuffle_all (gen w) a).1)
      by (first [apply lookup_insert_eq | by inversion Htail]).
    cbn [heap gen ts_calls].
    destruct (shuffle_all (gen w) a) as [a' g']. cbn [fst snd].
    destruct (rounds n a' g') as [states g''].
    cbn [fst snd fmap list_fmap].
    by rewrite insert_insert_eq, last_state_cons, reverse_cons, <- !app_assoc.
Qed.

(** *** The whole call *)

Lemma obs_ts_ok (r : loc) (a : matrix) (obs : option float) (w : world) :
  heap w !! r = Some a ->
  match obs with
  | None => call_compute_ts r
  | Some v => mret v
  end w
  = (inr (default (compute_ts a) obs),
     World (heap w) (gen w)
       (match obs with None => a :: ts_calls w | Some _ => ts_calls w end)).
Proof.
  intros Hr. destruct obs as [v|]; [by destruct w|].
  by apply call_compute_ts_ok.
Qed.

(** A call on an array that is there, with retention off or a count that
    is not negative, returns; this is what it returns and the state it
    leaves. *)
Lemma simulate_ts_dist_returns (ratings : loc) (obs : option float)
    (iter : Z) (keep_dist : bool) (a : matrix) (w : world) :
  heap w !! ratings = Some a ->
  keep_dist = false \/ 0 <= iter ->
  let r := fresh (dom (heap w)) in
  let obs' := default (compute_ts a) obs in
  let states := (rounds (Z.to_nat iter) a (gen w)).1 in
  let values := compute_ts <$> states in
  simulate_ts_dist ratings obs iter keep_dist w
  = (inr (Bundle obs' (sum_bool ((fun v => fge v obs') <$> values)) iter
            (if keep_dist then Some values else None)),
     World (<[r := default a (last states)]> (heap w))
       (rounds (Z.to_nat iter) a (gen w)).2
       (reverse states
        ++ match obs with None => a :: ts_calls w | Some _ => ts_calls w end)).
Proof.
  intros Hratings Hiter r obs' states values. unfold simulate_ts_dist.
  rewrite (bind_ok _ _ _ _ _ (copy_ok _ _ _ Hratings)). fold r.
  rewrite (bind_ok _ _ _ _ _ (obs_ts_ok r a obs _ (lookup_insert_eq _ _ _))).
  fold obs'. cbn [heap gen ts_calls].
  set (c1 := match obs with None => a :: ts_calls w | Some _ => ts_calls w end).
  destruct keep_dist.
  - destruct Hiter as [|Hiter]; [done|].
    unfold np_zeros. destruct (Z.ltb_spec iter 0) as [|_]; [lia|].
    rewrite bind_ret.
    pose proof (for_in_keep r (Z.to_nat iter) [] (replicate (Z.to_nat iter) (Fin 0)) a
                  (World (<[r := a]> (heap w)) (gen w) c1)
                  (lookup_insert_eq _ _ _) (length_replicate _ _)) as Hloop.
    cbn [length app] in Hloop. unfold range.
    rewrite (bind_ok _ _ _ _ _ Hloop).
    cbn [heap gen ts_calls]. by rewrite insert_insert_eq.
  - pose proof (for_in_discard r obs' (range iter) a
                  (World (<[r := a]> (heap w)) (gen w) c1) 0
                  (lookup_insert_eq _ _ _)) as Hloop.
    unfold range in Hloop. rewrite length_seq in Hloop.
    rewrite (bind_ok _ _ _ _ _ Hloop).
    cbn [heap gen ts_calls]. by rewrite insert_insert_eq.
Qed.

(** With retention on and a negative count, [np.zeros] raises before the
    first iteration. *)
Lemma simulate_ts_dist_raises (ratings : loc) (obs : option float)
    (iter : Z) (a : matrix) (w : world) :
  heap w !! ratings = Some a ->
  iter < 0 ->
  simulate_ts_dist ratings obs iter true w
  = (inl ValueError,
     World (<[fresh (dom (heap w)) := a]> (heap w)) (gen w)
       (match obs with None => a :: ts_calls w | Some _ => ts_calls w end)).
Proof.
  intros Hratings Hiter. unfold simulate_ts_dist.
  rewrite (bind_ok _ _ _ _ _ (copy_ok _ _ _ Hratings)).
  rewrite (bind_ok _ _ _ _ _
             (obs_ts_ok _ a obs _ (lookup_insert_eq _ _ _))).
  unfold np_zeros. destruct (Z.ltb_spec iter 0) as [_|]; [|lia].
  reflexivity.
Qed.

Lemma simulate_ts_dist_unbound (ratings : loc) (obs : option float)
    (iter : Z) (keep_dist : bool) (w : world) :
  heap w !! ratings = None ->
  simulate_ts_dist ratings obs iter keep_dist w = (inl NameError, w).
Proof.
  intros Hratings. unfold simulate_ts_dist.
  by rewrite (bind_raise _ _ _ _ _ (copy_unbound _ _ Hratings)).
Qed.

End simulator_facts.

(** ** Counting and the all-ones matrix *)

Lemma sum_bool_filter {A} (f : A -> bool) (l : list A) :
  sum_bool (f <$> l) = Z.of_nat (length (List.filter f l)).
Proof.
  induction l as [|x l IH]; [reflexivity|].
  cbn [fmap list_fmap List.filter]. rewrite sum_bool_cons, IH.
  destruct (f x); cbn [Z.b2z length]; lia.
Qed.

Lemma sum_bool_replicate_true (n : nat) : sum_bool (replicate n true) = Z.of_nat n.
Proof.
  induction n as [|n IH]; [reflexivity|].
  cbn [replicate]. rewrite sum_bool_cons, IH. simpl Z.b2z. lia.
Qed.

Lemma rotate_Permutation {A} (n : nat) (l : list A) : rotate n l ≡ₚ l.
Proof.
  unfold rotate. rewrite Permutation_app_comm. by rewrite take_drop.
Qed.

Lemma rotating_permutes : @ShufflePermutes rotating.
Proof. intros g row. apply rotate_Permutation. Qed.

Section all_ones.
Context `{RS : RandomState} `{!ShufflePermutes}.

Lemma shuffle_all_ones (R N : nat) (g : rng) :
  (shuffle_all g (ones R N)).1 = ones R N.
Proof.
  unfold ones. revert g. induction R as [|R IH]; intros g; [reflexivity|].
  cbn [replicate shuffle_all].
  pose proof (shuffle_permutes g (replicate N 1)) as Hperm.
  destruct (shuffle g (replicate N 1)) as [row' g']. simpl in Hperm.
  symmetry in Hperm. apply replicate_Permutation in Hperm as <-.
  specialize (IH g'). destruct (shuffle_all g' (replicate R (replicate N 1))).
  simpl in *. by rewrite IH.
Qed.

Lemma rounds_ones (n R N : nat) (g : rng) :
  (rounds n (ones R N) g).1 = replicate n (ones R N).
Proof.
  revert g. induction n as [|n IH]; intros g; [reflexivity|].
  cbn [rounds replicate].
  pose proof (shuffle_all_ones R N g) as Hall.
  destruct (shuffle_all g (ones R N)) as [a' g']. simpl in Hall. subst a'.
  specialize (IH g'). destruct (rounds n (ones R N) g').
  simpl in *. by rewrite IH.
Qed.

End all_ones.

(** ** The simulator *)

Section simulator_claims.
Context `{RS : RandomState}.

(** C3. Whatever the arguments and whatever the shuffles do, a call
    leaves the caller's array as it was: the store after the call holds
    every array of the store before it, unchanged, and the one new
    reference is the working copy. *)
Theorem simulate_ts_dist_frame (ratings : loc) (obs : option float)
    (iter : Z) (keep_dist : bool) (w : world) :
  let w' := (simulate_ts_dist ratings obs iter keep_dist w).2 in
  heap w' !! ratings = heap w !! ratings
  /\ heap w ⊆ heap w'
  /\ dom (heap w') ⊆ {[fresh (dom (heap w))]} ∪ dom (heap w).
Proof.
  destruct (heap w !! ratings) as [a|] eqn:Hratings.
  - assert (Hne : fresh (dom (heap w)) ≠ ratings).
    { intros Heq. pose proof (fresh_unbound (heap w)) as Hfresh.
      rewrite Heq in Hfresh. congruence. }
    assert (Hcases : (keep_dist = true /\ iter < 0)
                     \/ (keep_dist = false \/ 0 <= iter))
      by (destruct keep_dist; lia).
    destruct Hcases as [[-> Hneg]|Hok].
    + rewrite (simulate_ts_dist_raises _ _ _ a) by done. simpl.
      rewrite lookup_insert_ne, dom_insert_L by done.
      split; [done|]. split; [|done].
      apply insert_subseteq, fresh_unbound.
    + rewrite (simulate_ts_dist_returns _ _ _ _ a) by done. simpl.
      rewrite lookup_insert_ne, dom_insert_L by done.
      split; [done|]. split; [|done].
      apply insert_subseteq, fresh_unbound.
  - rewrite simulate_ts_dist_unbound by done. simpl.
    split; [done|]. split; [done|]. set_solver.
Qed.

(** C5, as the code has it.  A negative iteration count is not checked
    for.  With retention on the call aborts, [np.zeros] raising on the
    negative length; with retention off the loop runs zero times and the
    call returns a count of 0, the negative [iter] as given and no
    distribution. *)
Theorem negative_iter_outcome (ratings : loc) (obs : option float)
    (iter : Z) (a : matrix) (w : world) :
  heap w !! ratings = Some a ->
  iter < 0 ->
  (simulate_ts_dist ratings obs iter true w).1 = inl ValueError
  /\ (simulate_ts_dist ratings obs iter false w).1
     = inr (Bundle (default (compute_ts a) obs) 0 iter None).
Proof.
  intros Hratings Hiter. split.
  - by rewrite (simulate_ts_dist_raises _ _ _ a).
  - rewrite (simulate_ts_dist_returns _ _ _ _ a) by auto.
    replace (Z.to_nat iter) with 0%nat by lia. reflexivity.
Qed.

(** C6. With an iteration count of 0 the call returns a count of 0, and
    for the distribution the empty sequence when it is retained and
    [None] when it is not. *)
Theorem zero_iterations (ratings : loc) (obs : option float)
    (keep_dist : bool) (a : matrix) (w : world) :
  heap w !! ratings = Some a ->
  (simulate_ts_dist ratings obs 0 keep_dist w).1
  = inr (Bundle (default (compute_ts a) obs) 0 0
           (if keep_dist then Some [] else None)).
Proof.
  intros Hratings.
  rewrite (simulate_ts_dist_returns _ _ _ _ a) by (auto; lia).
  reflexivity.
Qed.

(** C8. The statistic of the 4 by 5 matrix of ones is 1, and a call on
    that matrix with [obs_ts] left out returns [geq = iter], for every
    iteration count that is not negative and whatever rearrangements the
    shuffles make. *)
Theorem all_ones_every_iteration_counts `{!ShufflePermutes}
    (ratings : loc) (iter : Z) (keep_dist : bool) (w : world) :
  heap w !! ratings = Some (ones 4 5) ->
  0 <= iter ->
  compute_ts (ones 4 5) = Fin 1
  /\ exists b, (simulate_ts_dist ratings None iter keep_dist w).1 = inr b
               /\ obs_ts b = Fin 1
               /\ geq b = iter.
Proof.
  intros Hratings Hiter. split; [reflexivity|].
  rewrite (simulate_ts_dist_returns _ _ _ _ (ones 4 5)) by auto.
  eexists. split; [reflexivity|]. split; [reflexivity|].
  cbn [geq fst]. rewrite rounds_ones, !fmap_replicate.
  change (fge (compute_ts (ones 4 5)) (default (compute_ts (ones 4 5)) None))
    with true.
  rewrite sum_bool_replicate_true. lia.
Qed.

(** C9. Driven by the same shuffles, the loop that keeps the distribution
    and the loop that does not return the same count, for every iteration
    count that is not negative; and the count returned with the
    distribution is the number of its entries that are [>= obs_ts]. *)
Theorem keep_dist_same_geq (ratings : loc) (obs : option float) (iter : Z)
    (a : matrix) (w : world) :
  heap w !! ratings = Some a ->
  0 <= iter ->
  exists (kept discarded : bundle) (d : list float),
    (simulate_ts_dist ratings obs iter true w).1 = inr kept
    /\ (simulate_ts_dist ratings obs iter false w).1 = inr discarded
    /\ geq kept = geq discarded
    /\ dist kept = Some d
    /\ geq kept
       = Z.of_nat (length (List.filter (fun v => fge v (obs_ts kept)) d)).
Proof.
  intros Hratings Hiter.
  rewrite !(simulate_ts_dist_returns _ _ _ _ a) by auto.
  do 3 eexists. split; [reflexivity|]. split; [reflexivity|].
  split; [reflexivity|]. split; [reflexivity|].
  apply sum_bool_filter.
Qed.

(** C10. When the caller gives [obs_ts], that value comes back in the
    result as it was given, whatever it is, and [compute_ts] is called
    once per iteration on the shuffled working copy and not before. *)
Theorem supplied_obs_ts_returned (ratings : loc) (v : float) (iter : Z)
    (keep_dist : bool) (a : matrix) (w : world) :
  heap w !! ratings = Some a ->
  keep_dist = false \/ 0 <= iter ->
  exists (b : bundle) (w' : world),
    simulate_ts_dist ratings (Some v) iter keep_dist w = (inr b, w')
    /\ obs_ts b = v
    /\ ts_calls w'
       = reverse (rounds (Z.to_nat iter) a (gen w)).1 ++ ts_calls w
    /\ length (ts_calls w') = (Z.to_nat iter + length (ts_calls w))%nat.
Proof.
  intros Hratings Hiter.
  rewrite (simulate_ts_dist_returns _ _ _ _ a) by done.
  do 2 eexists. split; [reflexivity|]. split; [reflexivity|].
  split; [reflexivity|].
  cbn [ts_calls]. rewrite length_app, length_reverse. f_equal.
  clear. generalize (gen w). revert a.
  induction (Z.to_nat iter) as [|n IH]; intros a g; [reflexivity|].
  cbn [rounds]. destruct (shuffle_all g a) as [a' g'].
  specialize (IH a' g'). destruct (rounds n a' g'). simpl in *. by rewrite IH.
Qed.

(** X16. When [obs_ts] is left out, the value returned as [obs_ts] is the
    statistic of the matrix as given, and the first call of [compute_ts] is
    on the copy before any shuffle, one call per iteration coming after. *)
Lemma computed_obs_ts_call (ratings : loc) (iter : Z) (keep_dist : bool)
    (a : matrix) (w : world) :
  heap w !! ratings = Some a ->
  keep_dist = false \/ 0 <= iter ->
  exists (b : bundle) (w' : world),
    simulate_ts_dist ratings None iter keep_dist w = (inr b, w')
    /\ obs_ts b = compute_ts a
    /\ ts_calls w'
       = reverse (rounds (Z.to_nat iter) a (gen w)).1 ++ a :: ts_calls w.
Proof.
  intros Hratings Hiter.
  rewrite (simulate_ts_dist_returns _ _ _ _ a) by done.
  by do 2 eexists.
Qed.

End simulator_claims.

(** ** The claims on a run *)

Lemma negative_iter_outcome_witness :
  (@simulate_ts_dist rotating 1%positive None (-1) true example_world).1
  = inl ValueError
  /\ (@simulate_ts_dist rotating 1%positive None (-1) false example_world).1
     = inr (Bundle (Fin (5 # 9)) 0 (-1) None).
Proof.
  apply (@negative_iter_outcome rotating 1%positive None (-1)
           example_ratings example_world).
  - reflexivity.
  - lia.
Defined.

(** C5, as stated, fails: with retention off a negative iteration count
    gives a result. *)
Lemma negative_iter_is_not_rejected :
  ~ (forall (RS : RandomState) (ratings : loc) (obs : option float) (iter : Z)
            (keep_dist : bool) (a : matrix) (w : world),
       heap w !! ratings = Some a ->
       iter < 0 ->
       exists e, (simulate_ts_dist ratings obs iter keep_dist w).1 = inl e).
Proof.
  intros Hclaim.
  destruct (Hclaim rotating 1%positive None (-1) false example_ratings
              example_world eq_refl eq_refl) as [e He].
  vm_compute in He. discriminate He.
Qed.

Lemma zero_iterations_witness :
  (@simulate_ts_dist rotating 1%positive None 0 true example_world).1
  = inr (Bundle (Fin (5 # 9)) 0 0 (Some [])).
Proof.
  apply (@zero_iterations rotating 1%positive None true example_ratings
           example_world).
  reflexivity.
Defined.

Lemma all_ones_every_iteration_counts_witness :
  compute_ts (ones 4 5) = Fin 1
  /\ exists b, (@simulate_ts_dist rotating 1%positive None 3 true ones_world).1
               = inr b
               /\ obs_ts b = Fin 1
               /\ geq b = 3.
Proof.
  apply (@all_ones_every_iteration_counts rotating rotating_permutes
           1%positive 3 true ones_world).
  - reflexivity.
  - lia.
Defined.

Lemma keep_dist_same_geq_witness :
  exists (kept discarded : bundle) (d : list float),
    (@simulate_ts_dist rotating 1%positive None 3 true example_world).1
    = inr kept
    /\ (@simulate_ts_dist rotating 1%positive None 3 false example_world).1
       = inr discarded
    /\ geq kept = geq discarded
    /\ dist kept = Some d
    /\ geq kept
       = Z.of_nat (length (List.filter (fun v => fge v (obs_ts kept)) d)).
Proof.
  apply (@keep_dist_same_geq rotating 1%positive None 3 example_ratings
           example_world).
  - reflexivity.
  - lia.
Defined.

Lemma supplied_obs_ts_returned_witness :
  exists (b : bundle) (w' : @world rotating),
    @simulate_ts_dist rotating 1%positive (Some (Fin (-7 # 2))) 2 false
      example_world = (inr b, w')
    /\ obs_ts b = Fin (-7 # 2)
    /\ ts_calls w'
       = reverse (@rounds rotating 2 example_ratings 1%nat).1 ++ []
    /\ length (ts_calls w') = (2 + 0)%nat.
Proof.
  apply (@supplied_obs_ts_returned rotating 1%positive (Fin (-7 # 2)) 2 false
           example_ratings example_world).
  - reflexivity.
  - left. reflexivity.
Defined.

(** * Further properties of the statistic *)

(** ** Quotients *)

Lemma inject_Z_nonzero (b : Z) : b <> 0 -> ~ (inject_Z b == 0)%Q.
Proof.
  intros Hb Heq. unfold Qeq in Heq. simpl in Heq. lia.
Qed.

Lemma truediv_scale (k a b : Z) :
  0 < k -> truediv (k * a) (k * b) = truediv a b.
Proof.
  intros Hk. unfold truediv.
  destruct (Z.eqb_spec b 0) as [->|Hb].
  - rewrite Z.mul_0_r. simpl.
    destruct (Z.eqb_spec a 0) as [->|Ha].
    + by rewrite Z.mul_0_r.
    + destruct (Z.eqb_spec (k * a) 0) as [H0|_];
        [apply Z.mul_eq_0 in H0; lia|].
      destruct (Z.ltb_spec 0 a), (Z.ltb_spec 0 (k * a)); (done || nia).
  - destruct (Z.eqb_spec (k * b) 0) as [H0|_];
      [apply Z.mul_eq_0 in H0; lia|].
    f_equal. apply Qred_complete.
    rewrite !inject_Z_mult.
    pose proof (inject_Z_nonzero b Hb).
    pose proof (inject_Z_nonzero k ltac:(lia)).
    field. by split.
Qed.

Lemma truediv_eq_one (a b : Z) :
  0 < b -> truediv a b = Fin 1 <-> a = b.
Proof.
  intros Hb. unfold truediv.
  destruct (Z.eqb_spec b 0) as [|_]; [lia|].
  pose proof (inject_Z_nonzero b ltac:(lia)) as Hnz.
  split.
  - intros Heq. injection Heq as Heq.
    pose proof (Qred_correct (inject_Z a / inject_Z b)) as Hred.
    rewrite Heq in Hred.
    apply inject_Z_injective.
    rewrite <- (Qmult_1_l (inject_Z b)), Hred. field. done.
  - intros ->. f_equal.
    change 1%Q with (Qred 1). apply Qred_complete. field. done.
Qed.

Lemma truediv_finite (a b : Z) :
  b <> 0 -> truediv a b = Fin (Qred (inject_Z a / inject_Z b)).
Proof. intros Hb. unfold truediv. by destruct (Z.eqb_spec b 0). Qed.

Lemma fge_refl_Fin (q : Q) : fge (Fin q) (Fin q) = true.
Proof. simpl. apply Qle_bool_iff, Qle_refl. Qed.

(** ** Pairs of raters that agree *)

Lemma count_ones_binary (l : array) :
  Forall (fun x => x = 0 \/ x = 1) l ->
  Z.of_nat (length (List.filter (fun z => z =? 1) l)) = arr_sum l.
Proof.
  induction 1 as [|x l Hx _ IH]; [reflexivity|].
  rewrite arr_sum_cons. cbn [List.filter].
  destruct Hx as [-> | ->]; cbn [Z.eqb Pos.eqb length]; lia.
Qed.

Lemma count_zeros_binary (l : array) :
  Forall (fun x => x = 0 \/ x = 1) l ->
  Z.of_nat (length (List.filter (fun z => z =? 0) l))
  = Z.of_nat (length l) - arr_sum l.
Proof.
  induction 1 as [|x l Hx _ IH]; [reflexivity|].
  rewrite arr_sum_cons. cbn [List.filter].
  destruct Hx as [-> | ->]; cbn [Z.eqb length]; lia.
Qed.

(** Twice the number of agreeing pairs is what [counts] holds. *)
Lemma agreeing_pairs_binary (col : array) :
  Forall (fun x => x = 0 \/ x = 1) col ->
  2 * agreeing_pairs col
  = concordant_pairs (Z.of_nat (length col)) (arr_sum col).
Proof.
  induction 1 as [|x col Hx Hcol IH]; [reflexivity|].
  cbn [agreeing_pairs]. rewrite arr_sum_cons.
  unfold concordant_pairs in *.
  destruct Hx as [-> | ->].
  - rewrite count_zeros_binary by done. cbn [length]. nia.
  - rewrite count_ones_binary by done. cbn [length]. nia.
Qed.

Lemma length_column (m : matrix) (i : nat) : length (column m i) = length m.
Proof. unfold column. apply length_fmap. Qed.

Lemma column_binary (m : matrix) (i : nat) :
  binary m -> Forall (fun x => x = 0 \/ x = 1) (column m i).
Proof.
  unfold column. intros Hbin. rewrite Forall_fmap.
  eapply Forall_impl; [exact Hbin|]. intros row Hrow. simpl.
  destruct (nth_in_or_default i row 0) as [Hin| ->]; [|by left].
  rewrite Forall_forall in Hrow. by apply Hrow, list_elem_of_In.
Qed.

Lemma col_total_column (m : matrix) (i : nat) :
  col_total m i = arr_sum (column m i).
Proof. reflexivity. Qed.

Lemma consecutive_even (R : Z) : R * (R - 1) = 2 * (R * (R - 1) / 2).
Proof.
  apply Z_div_exact_2; [lia|].
  destruct (Z.Even_or_Odd R) as [[k ->]|[k ->]].
  - replace (2 * k * (2 * k - 1)) with ((k * (2 * k - 1)) * 2) by ring.
    apply Z_mod_mult.
  - replace ((2 * k + 1) * (2 * k + 1 - 1)) with (((2 * k + 1) * k) * 2) by ring.
    apply Z_mod_mult.
Qed.

Lemma arr_sum_fmap_scale {A} (k : Z) (f : A -> Z) (l : list A) :
  arr_sum ((fun x => k * f x) <$> l) = k * arr_sum (f <$> l).
Proof.
  induction l as [|x l IH]; [simpl; lia|].
  cbn [fmap list_fmap]. rewrite !arr_sum_cons, IH. lia.
Qed.

Lemma concordant_total_pairs (m : matrix) :
  binary m ->
  concordant_total m
  = 2 * arr_sum ((fun i => agreeing_pairs (column m i)) <$> seq 0 (shape m).2).
Proof.
  intros Hbin. unfold concordant_total, shape. cbn [fst snd].
  rewrite <- arr_sum_fmap_scale. unfold arr_sum. f_equal.
  apply list_fmap_ext. intros _ i _.
  rewrite agreeing_pairs_binary by by apply column_binary.
  by rewrite length_column, col_total_column.
Qed.

(** X1. The docstring's first reading of the statistic.  For a binary
    matrix with at least two raters and one item, [compute_ts] is the
    number of pairs of raters [r < v] that agree on an item, summed over
    the items and divided by [N * (R choose 2)]. *)
Theorem compute_ts_agreeing_pairs (ratings : matrix) (R N : nat) :
  rectangular ratings ->
  binary ratings ->
  shape ratings = (R, N) ->
  (2 <= R)%nat -> (1 <= N)%nat ->
  compute_ts ratings
  = Fin (Qred (inject_Z
                 (arr_sum ((fun i => agreeing_pairs (column ratings i))
                             <$> seq 0 N))
               / inject_Z (Z.of_nat N * (Z.of_nat R * (Z.of_nat R - 1) / 2)))).
Proof.
  intros Hrect Hbin Hshape HR HN.
  rewrite compute_ts_quotient, concordant_total_pairs, Hshape by done.
  cbn [fst snd].
  pose proof (consecutive_even (Z.of_nat R)) as Heven.
  replace (Z.of_nat N * Z.of_nat R * (Z.of_nat R - 1))
    with (2 * (Z.of_nat N * (Z.of_nat R * (Z.of_nat R - 1) / 2))) by lia.
  rewrite truediv_scale by lia.
  apply truediv_finite.
  assert (0 < Z.of_nat R * (Z.of_nat R - 1)) by nia.
  apply Z.neq_mul_0. lia.
Qed.

Lemma compute_ts_agreeing_pairs_witness :
  compute_ts example_ratings = Fin (5 # 9).
Proof.
  rewrite (compute_ts_agreeing_pairs example_ratings 3 3).
  - reflexivity.
  - closed_Forall.
  - closed_Forall.
  - reflexivity.
  - lia.
  - lia.
Defined.

(** ** Perfect concordance *)

Lemma arr_sum_upper (hi : Z) (l : array) :
  Forall (fun x => x <= hi) l -> arr_sum l <= Z.of_nat (length l) * hi.
Proof.
  induction 1 as [|x l Hx _ IH]; [simpl; lia|].
  rewrite arr_sum_cons. cbn [length]. lia.
Qed.

Lemma arr_sum_attains (hi : Z) (l : array) :
  Forall (fun x => x <= hi) l ->
  arr_sum l = Z.of_nat (length l) * hi <-> Forall (fun x => x = hi) l.
Proof.
  induction 1 as [|x l Hx Hl IH].
  - split; [constructor|reflexivity].
  - rewrite arr_sum_cons, Forall_cons. cbn [length].
    pose proof (arr_sum_upper hi l Hl). split.
    + intros Hsum. assert (x = hi) by lia. split; [done|]. apply IH. lia.
    + intros [-> Hall]. apply IH in Hall. lia.
Qed.

Lemma concordant_pairs_full (R y : Z) :
  0 <= y <= R -> concordant_pairs R y = R * (R - 1) <-> y = 0 \/ y = R.
Proof.
  intros Hy. unfold concordant_pairs.
  replace (y * (y - 1) + (R - y) * (R - y - 1))
    with (R * (R - 1) - 2 * (y * (R - y))) by ring.
  split.
  - intros Heq. assert (Hz : y * (R - y) = 0) by lia.
    apply Z.mul_eq_0 in Hz. lia.
  - intros [-> | ->]; ring.
Qed.

(** X2. For a binary matrix with at least two raters and one item, the
    statistic is 1 exactly when the raters are unanimous on every item:
    each column total is 0 or [R]. *)
Theorem compute_ts_one_iff_unanimous (ratings : matrix) (R N : nat) :
  rectangular ratings ->
  binary ratings ->
  shape ratings = (R, N) ->
  (2 <= R)%nat -> (1 <= N)%nat ->
  compute_ts ratings = Fin 1
  <-> Forall (fun i => col_total ratings i = 0
                      \/ col_total ratings i = Z.of_nat R) (seq 0 N).
Proof.
  intros Hrect Hbin Hshape HR HN.
  assert (HRlen : R = length ratings) by (unfold shape in Hshape; congruence).
  rewrite compute_ts_quotient, Hshape by done. cbn [fst snd].
  rewrite truediv_eq_one by nia.
  unfold concordant_total. rewrite Hshape.
  set (cs := (fun i => concordant_pairs (Z.of_nat R) (col_total ratings i))
               <$> seq 0 N).
  assert (Hcs : Forall (fun x => x <= Z.of_nat R * (Z.of_nat R - 1)) cs).
  { unfold cs. rewrite Forall_fmap. apply Forall_forall. intros i _. simpl.
    apply concordant_pairs_bounds. subst R. by apply col_total_bounds. }
  pose proof (arr_sum_attains _ _ Hcs) as Hiff.
  unfold cs in Hiff at 2. rewrite length_fmap, length_seq in Hiff.
  change (foldr Z.add 0 cs) with (arr_sum cs).
  replace (Z.of_nat N * Z.of_nat R * (Z.of_nat R - 1))
    with (Z.of_nat N * (Z.of_nat R * (Z.of_nat R - 1))) by ring.
  rewrite Hiff. unfold cs. rewrite Forall_fmap.
  apply Forall_iff. intros i. simpl.
  apply concordant_pairs_full. subst R. by apply col_total_bounds.
Qed.

Lemma compute_ts_one_iff_unanimous_witness :
  compute_ts [[1; 0; 1]; [1; 0; 1]] = Fin 1
  <-> Forall (fun i => col_total [[1; 0; 1]; [1; 0; 1]] i = 0
                      \/ col_total [[1; 0; 1]; [1; 0; 1]] i = Z.of_nat 2)
        (seq 0 3).
Proof.
  apply (compute_ts_one_iff_unanimous [[1; 0; 1]; [1; 0; 1]] 2 3).
  - closed_Forall.
  - closed_Forall.
  - reflexivity.
  - lia.
  - lia.
Defined.

(** ** The opposite labelling *)

Lemma shape_complement (m : matrix) : shape (complement m) = shape m.
Proof.
  destruct m as [|row m]; [reflexivity|].
  unfold shape, complement. cbn [fmap list_fmap hd length].
  by rewrite !length_fmap.
Qed.

Lemma rectangular_complement (m : matrix) :
  rectangular m -> rectangular (complement m).
Proof.
  unfold rectangular. rewrite shape_complement. unfold complement.
  rewrite Forall_fmap. intros Hrect.
  eapply Forall_impl; [exact Hrect|]. intros row Hrow. simpl.
  by rewrite length_fmap.
Qed.

Lemma col_total_complement (m : matrix) (i : nat) :
  Forall (fun row => (i < length row)%nat) m ->
  col_total (complement m) i = Z.of_nat (length m) - col_total m i.
Proof.
  unfold col_total, complement.
  induction 1 as [|row m Hrow _ IH]; [reflexivity|].
  cbn [fmap list_fmap foldr length] in *. rewrite IH.
  rewrite (nth_indep _ 0 (1 - 0)) by (by rewrite length_fmap).
  rewrite (map_nth (fun x => 1 - x)). lia.
Qed.

Lemma concordant_pairs_complement (R y : Z) :
  concordant_pairs R (R - y) = concordant_pairs R y.
Proof. unfold concordant_pairs. ring. Qed.

(** X3. Which of the two labels is written 1 does not matter: turning every
    rating [x] into [1 - x] leaves the statistic as it is. *)
Theorem compute_ts_complement (ratings : matrix) :
  rectangular ratings ->
  compute_ts (complement ratings) = compute_ts ratings.
Proof.
  intros Hrect.
  rewrite !compute_ts_quotient by auto using rectangular_complement.
  rewrite shape_complement. f_equal.
  unfold concordant_total. rewrite shape_complement.
  unfold rectangular in Hrect.
  destruct (shape ratings) as [R N] eqn:Hshape. cbn [snd] in Hrect.
  assert (HR : R = length ratings) by (unfold shape in Hshape; congruence).
  f_equal. apply list_fmap_ext. intros k i Hi.
  apply lookup_seq in Hi as [-> Hk]. simpl.
  rewrite col_total_complement, <- HR.
  - apply concordant_pairs_complement.
  - eapply Forall_impl; [exact Hrect|]. simpl. intros row ->. done.
Qed.

Lemma compute_ts_complement_witness :
  compute_ts [[0; 0; 1]; [0; 1; 1]; [1; 0; 1]] = compute_ts example_ratings.
Proof.
  apply (compute_ts_complement example_ratings). closed_Forall.
Defined.

(** ** Matrices on which the statistic is not a number *)

(** X4. With no item to rate the statistic is [nan]: numerator and
    denominator are both 0 and nothing is raised. *)
Theorem compute_ts_no_items (ratings : matrix) :
  rectangular ratings ->
  (shape ratings).2 = 0%nat ->
  compute_ts ratings = NaN.
Proof.
  intros Hrect HN. rewrite compute_ts_quotient by done.
  unfold concordant_total.
  destruct (shape ratings) as [R N]. simpl in HN. subst N. reflexivity.
Qed.

Lemma compute_ts_no_items_witness : compute_ts [[]; []; []] = NaN.
Proof.
  apply (compute_ts_no_items [[]; []; []]).
  - closed_Forall.
  - reflexivity.
Defined.





(** ** Ratings that are not 0 or 1 *)




(** ** Pooling items *)







(** ** The least value the statistic takes *)






(** * Further properties of the simulator *)

Lemma sum_bool_range (bs : list bool) :
  0 <= sum_bool bs <= Z.of_nat (length bs).
Proof.
  induction bs as [|b bs IH]; [simpl; lia|].
  rewrite sum_bool_cons. cbn [length]. destruct b; simpl Z.b2z; lia.
Qed.

Lemma sum_bool_all_false {A} (f : A -> bool) (l : list A) :
  Forall (fun x => f x = false) l -> sum_bool (f <$> l) = 0.
Proof.
  induction 1 as [|x l Hx _ IH]; [reflexivity|].
  cbn [fmap list_fmap]. by rewrite sum_bool_cons, Hx, IH.
Qed.

Lemma sum_bool_all_true {A} (f : A -> bool) (l : list A) :
  Forall (fun x => f x = true) l -> sum_bool (f <$> l) = Z.of_nat (length l).
Proof.
  induction 1 as [|x l Hx _ IH]; [reflexivity|].
  cbn [fmap list_fmap length]. rewrite sum_bool_cons, Hx, IH. simpl Z.b2z. lia.
Qed.

Lemma sum_bool_mono {A} (f g : A -> bool) (l : list A) :
  Forall (fun x => f x = true -> g x = true) l ->
  sum_bool (f <$> l) <= sum_bool (g <$> l).
Proof.
  induction 1 as [|x l Hx _ IH]; [reflexivity|].
  cbn [fmap list_fmap]. rewrite !sum_bool_cons.
  destruct (f x); [rewrite Hx by done|destruct (g x)]; simpl Z.b2z; lia.
Qed.

(** Rows that are rearrangements of one another, row by row. *)
Lemma rows_permuted_shape (s a : matrix) :
  Forall2 (≡ₚ) s a -> shape s = shape a.
Proof.
  intros Hperm. unfold shape. f_equal.
  - by eapply Forall2_length.
  - destruct Hperm as [|rs ra s a Hrow _]; [reflexivity|].
    simpl. by rewrite Hrow.
Qed.

Lemma rows_permuted_rectangular (s a : matrix) :
  Forall2 (≡ₚ) s a -> rectangular a -> rectangular s.
Proof.
  intros Hperm. unfold rectangular.
  rewrite (rows_permuted_shape s a Hperm).
  generalize (shape a).2. intros N Ha.
  induction Hperm as [|rs ra s a Hrow _ IH]; [constructor|].
  apply Forall_cons in Ha as [Hra Ha]. constructor; [|by apply IH].
  by rewrite Hrow.
Qed.

Lemma rows_permuted_binary (s a : matrix) :
  Forall2 (≡ₚ) s a -> binary a -> binary s.
Proof.
  unfold binary. intros Hperm Ha.
  induction Hperm as [|rs ra s a Hrow _ IH]; [constructor|].
  apply Forall_cons in Ha as [Hra Ha]. constructor; [|by apply IH].
  by rewrite Hrow.
Qed.

Lemma rows_permuted_refl (a : matrix) : Forall2 (≡ₚ) a a.
Proof. by apply Forall_Forall2_diag, Forall_forall. Qed.

Lemma rows_permuted_trans (s t a : matrix) :
  Forall2 (≡ₚ) s t -> Forall2 (≡ₚ) t a -> Forall2 (≡ₚ) s a.
Proof.
  intros Hst. revert a. induction Hst as [|rs rt s t Hrow _ IH]; intros a Hta.
  - by inversion Hta.
  - inversion Hta as [|? ra ? a' Hrow' Hta']; subst.
    constructor; [by rewrite Hrow|by apply IH].
Qed.

(** The statistic of a valid binary matrix, restated for use below. *)
Lemma compute_ts_valid_unit (m : matrix) (R N : nat) :
  rectangular m -> binary m -> shape m = (R, N) ->
  (2 <= R)%nat -> (1 <= N)%nat ->
  exists q, compute_ts m = Fin q /\ (0 <= q)%Q /\ (q <= 1)%Q.
Proof.
  intros Hrect Hbin Hshape HR HN.
  rewrite compute_ts_quotient by done.
  pose proof (concordant_total_bounds m Hbin) as Hb.
  rewrite Hshape in *. simpl in *.
  apply truediv_unit_interval; nia.
Qed.

Section simulator_more.
Context `{RS : RandomState}.

Lemma rounds_length (n : nat) (a : matrix) (g : rng) :
  length (rounds n a g).1 = n.
Proof.
  revert a g. induction n as [|n IH]; intros a g; [reflexivity|].
  cbn [rounds]. destruct (shuffle_all g a) as [a' g'].
  specialize (IH a' g'). destruct (rounds n a' g'). simpl in *. by rewrite IH.
Qed.

Lemma shuffle_all_rows_permuted `{!ShufflePermutes} (g : rng) (a : matrix) :
  Forall2 (≡ₚ) (shuffle_all g a).1 a.
Proof.
  revert g. induction a as [|row a IH]; intros g; [constructor|].
  cbn [shuffle_all].
  pose proof (shuffle_permutes g row) as Hrow.
  destruct (shuffle g row) as [row' g']. simpl in Hrow.
  specialize (IH g'). destruct (shuffle_all g' a) as [a' g''].
  simpl in *. by constructor.
Qed.

Lemma rounds_rows_permuted `{!ShufflePermutes} (n : nat) (a : matrix) (g : rng) :
  Forall (fun s => Forall2 (≡ₚ) s a) (rounds n a g).1.
Proof.
  revert a g. induction n as [|n IH]; intros a g; [constructor|].
  cbn [rounds].
  pose proof (shuffle_all_rows_permuted g a) as Hstep.
  destruct (shuffle_all g a) as [a' g']. simpl in Hstep.
  specialize (IH a' g'). destruct (rounds n a' g') as [states g''].
  simpl in *. constructor; [done|].
  eapply Forall_impl; [exact IH|]. intros s Hs.
  by apply (rows_permuted_trans s a' a).
Qed.

Lemma shuffle_all_fixed `{!ShufflePermutes} (g : rng) (a : matrix) :
  Forall (fun row => exists c, row = replicate (length row) c) a ->
  (shuffle_all g a).1 = a.
Proof.
  intros Ha. revert g. induction Ha as [|row a [c Hrow] _ IH]; intros g;
    [reflexivity|].
  cbn [shuffle_all].
  pose proof (shuffle_permutes g row) as Hperm.
  destruct (shuffle g row) as [row' g']. simpl in Hperm.
  rewrite Hrow in Hperm. symmetry in Hperm.
  apply replicate_Permutation in Hperm. rewrite <- Hrow in Hperm. subst row'.
  specialize (IH g'). destruct (shuffle_all g' a). simpl in *. by rewrite IH.
Qed.

Lemma rounds_fixed `{!ShufflePermutes} (n : nat) (a : matrix) (g : rng) :
  Forall (fun row => exists c, row = replicate (length row) c) a ->
  (rounds n a g).1 = replicate n a.
Proof.
  intros Ha. revert g. induction n as [|n IH]; intros g; [reflexivity|].
  cbn [rounds replicate].
  pose proof (shuffle_all_fixed g a Ha) as Hall.
  destruct (shuffle_all g a) as [a' g']. simpl in Hall. subst a'.
  specialize (IH g'). destruct (rounds n a g'). simpl in *. by rewrite IH.
Qed.

End simulator_more.

Section simulator_extras.
Context `{RS : RandomState}.

(** X8. The shuffles only rearrange ratings within a rater's row: every
    matrix [compute_ts] is called on during a call, on every path, has row
    by row the ratings of the caller's matrix in some order. *)
Theorem statistic_taken_on_rearranged_rows `{!ShufflePermutes}
    (ratings : loc) (obs : option float) (iter : Z) (keep_dist : bool)
    (a : matrix) (w : world) :
  heap w !! ratings = Some a ->
  exists calls : list matrix,
    ts_calls (simulate_ts_dist ratings obs iter keep_dist w).2
    = calls ++ ts_calls w
    /\ Forall (fun s => Forall2 (≡ₚ) s a) calls.
Proof.
  intros Hratings.
  assert (Hcases : (keep_dist = true /\ iter < 0)
                   \/ (keep_dist = false \/ 0 <= iter))
    by (destruct keep_dist; lia).
  destruct Hcases as [[-> Hneg]|Hok].
  - rewrite (simulate_ts_dist_raises _ _ _ a) by done. cbn [snd ts_calls].
    destruct obs as [v|].
    + exists []. by split.
    + exists [a]. split; [done|]. repeat constructor. apply rows_permuted_refl.
  - rewrite (simulate_ts_dist_returns _ _ _ _ a) by done. cbn [snd ts_calls].
    pose proof (rounds_rows_permuted (Z.to_nat iter) a (gen w)) as Hall.
    destruct obs as [v|].
    + eexists. split; [reflexivity|]. by apply Forall_reverse.
    + exists (reverse (rounds (Z.to_nat iter) a (gen w)).1 ++ [a]). split.
      * by rewrite <- app_assoc.
      * apply Forall_app. split; [by apply Forall_reverse|].
        repeat constructor. apply rows_permuted_refl.
Qed.

(** X9. With retention on, the distribution returned has exactly [iter]
    entries. *)
Theorem dist_has_iter_entries (ratings : loc) (obs : option float) (iter : Z)
    (a : matrix) (w : world) :
  heap w !! ratings = Some a ->
  0 <= iter ->
  exists (b : bundle) (d : list float),
    (simulate_ts_dist ratings obs iter true w).1 = inr b
    /\ dist b = Some d
    /\ Z.of_nat (length d) = iter.
Proof.
  intros Hratings Hiter.
  rewrite (simulate_ts_dist_returns _ _ _ _ a) by auto.
  do 2 eexists. split; [reflexivity|]. split; [reflexivity|].
  rewrite length_fmap, rounds_length. lia.
Qed.

(** X10. The count returned is between 0 and the number of iterations. *)
Theorem geq_between_0_and_iter (ratings : loc) (obs : option float) (iter : Z)
    (keep_dist : bool) (a : matrix) (w : world) :
  heap w !! ratings = Some a ->
  0 <= iter ->
  exists b : bundle,
    (simulate_ts_dist ratings obs iter keep_dist w).1 = inr b
    /\ 0 <= geq b <= iter.
Proof.
  intros Hratings Hiter.
  rewrite (simulate_ts_dist_returns _ _ _ _ a) by auto.
  eexists. split; [reflexivity|]. cbn [geq].
  match goal with |- 0 <= sum_bool ?bs <= _ =>
    pose proof (sum_bool_range bs) as Hrange end.
  rewrite !length_fmap, rounds_length in Hrange. lia.
Qed.

(** X11. For a binary matrix with at least two raters and one item, every
    entry of the distribution is a number between 0 and 1. *)
Theorem dist_in_unit_interval `{!ShufflePermutes}
    (ratings : loc) (obs : option float) (iter : Z)
    (a : matrix) (R N : nat) (w : world) :
  heap w !! ratings = Some a ->
  rectangular a -> binary a -> shape a = (R, N) ->
  (2 <= R)%nat -> (1 <= N)%nat ->
  0 <= iter ->
  exists (b : bundle) (d : list float),
    (simulate_ts_dist ratings obs iter true w).1 = inr b
    /\ dist b = Some d
    /\ Forall (fun v => exists q, v = Fin q /\ (0 <= q)%Q /\ (q <= 1)%Q) d.
Proof.
  intros Hratings Hrect Hbin Hshape HR HN Hiter.
  rewrite (simulate_ts_dist_returns _ _ _ _ a) by auto.
  do 2 eexists. split; [reflexivity|]. split; [reflexivity|].
  rewrite Forall_fmap.
  eapply Forall_impl; [apply (rounds_rows_permuted (Z.to_nat iter) a (gen w))|].
  intros s Hs. simpl.
  apply (compute_ts_valid_unit s R N); [| | |done|done].
  - by apply (rows_permuted_rectangular s a).
  - by apply (rows_permuted_binary s a).
  - by rewrite (rows_permuted_shape s a).
Qed.

(** X12. Retaining the distribution or not changes nothing else: started
    in the same state, the two paths leave the same store, the same
    generator state and the same record of calls. *)
Theorem keep_dist_same_final_state (ratings : loc) (obs : option float)
    (iter : Z) (a : matrix) (w : world) :
  heap w !! ratings = Some a ->
  0 <= iter ->
  (simulate_ts_dist ratings obs iter true w).2
  = (simulate_ts_dist ratings obs iter false w).2.
Proof.
  intros Hratings Hiter.
  by rewrite !(simulate_ts_dist_returns _ _ _ _ a) by auto.
Qed.

(** X13. A reference value that is [nan], given by the caller or computed
    from a matrix on which the statistic is [nan], is met by no
    permutation: the count is 0. *)
Theorem nan_reference_counts_nothing (ratings : loc) (obs : option float)
    (iter : Z) (keep_dist : bool) (a : matrix) (w : world) :
  heap w !! ratings = Some a ->
  keep_dist = false \/ 0 <= iter ->
  default (compute_ts a) obs = NaN ->
  exists b : bundle,
    (simulate_ts_dist ratings obs iter keep_dist w).1 = inr b
    /\ obs_ts b = NaN
    /\ geq b = 0.
Proof.
  intros Hratings Hiter Hnan.
  rewrite (simulate_ts_dist_returns _ _ _ _ a) by done.
  eexists. split; [reflexivity|]. split; [exact Hnan|].
  cbn [geq]. rewrite Hnan. apply sum_bool_all_false.
  apply Forall_forall. intros v _. by destruct v.
Qed.

(** X14. With the same shuffles, a larger reference value is met by no
    more permutations than a smaller one. *)
Theorem geq_antitone_in_reference (ratings : loc) (o1 o2 : Q) (iter : Z)
    (keep_dist : bool) (a : matrix) (w : world) :
  heap w !! ratings = Some a ->
  keep_dist = false \/ 0 <= iter ->
  (o1 <= o2)%Q ->
  exists b1 b2 : bundle,
    (simulate_ts_dist ratings (Some (Fin o1)) iter keep_dist w).1 = inr b1
    /\ (simulate_ts_dist ratings (Some (Fin o2)) iter keep_dist w).1 = inr b2
    /\ geq b2 <= geq b1.
Proof.
  intros Hratings Hiter Hle.
  rewrite !(simulate_ts_dist_returns _ _ _ _ a) by done.
  do 2 eexists. split; [reflexivity|]. split; [reflexivity|].
  cbn [geq default]. apply sum_bool_mono.
  apply Forall_forall. intros v _.
  destruct v as [p| | |]; simpl; try done.
  rewrite !Qle_bool_iff. intros Hp. by apply (Qle_trans _ o2).
Qed.

(** X15. When no rater tells the items apart (every row is constant) the
    shuffles change nothing: with [obs_ts] left out and at least two raters
    and one item, every permutation meets the reference and [geq = iter]. *)
Theorem constant_rows_all_count `{!ShufflePermutes}
    (ratings : loc) (iter : Z) (keep_dist : bool)
    (a : matrix) (R N : nat) (w : world) :
  heap w !! ratings = Some a ->
  rectangular a -> shape a = (R, N) ->
  (2 <= R)%nat -> (1 <= N)%nat ->
  Forall (fun row => exists c, row = replicate (length row) c) a ->
  0 <= iter ->
  exists b : bundle,
    (simulate_ts_dist ratings None iter keep_dist w).1 = inr b
    /\ geq b = iter.
Proof.
  intros Hratings Hrect Hshape HR HN Hconst Hiter.
  rewrite (simulate_ts_dist_returns _ _ _ _ a) by auto.
  eexists. split; [reflexivity|].
  cbn [geq default]. rewrite rounds_fixed, !fmap_replicate by done.
  assert (Hfin : exists q, compute_ts a = Fin q).
  { rewrite compute_ts_quotient, Hshape by done. cbn [fst snd].
    rewrite truediv_finite by nia. by eexists. }
  destruct Hfin as [q ->]. rewrite fge_refl_Fin, sum_bool_replicate_true. lia.
Qed.

(** X17. For a binary matrix with at least two raters and one item, a
    reference value of 0 or less is met by every permutation and a
    reference value above 1 by none. *)
Theorem reference_outside_unit_interval `{!ShufflePermutes}
    (ratings : loc) (o : Q) (iter : Z) (keep_dist : bool)
    (a : matrix) (R N : nat) (w : world) :
  heap w !! ratings = Some a ->
  rectangular a -> binary a -> shape a = (R, N) ->
  (2 <= R)%nat -> (1 <= N)%nat ->
  0 <= iter ->
  (o <= 0)%Q \/ (1 < o)%Q ->
  exists b : bundle,
    (simulate_ts_dist ratings (Some (Fin o)) iter keep_dist w).1 = inr b
    /\ geq b = if Qle_bool o 0 then iter else 0.
Proof.
  intros Hratings Hrect Hbin Hshape HR HN Hiter Ho.
  rewrite (simulate_ts_dist_returns _ _ _ _ a) by auto.
  eexists. split; [reflexivity|]. cbn [geq default].
  assert (Hall : Forall (fun v => exists q, v = Fin q /\ (0 <= q)%Q /\ (q <= 1)%Q)
                   (compute_ts <$> (rounds (Z.to_nat iter) a (gen w)).1)).
  { rewrite Forall_fmap.
    eapply Forall_impl; [apply (rounds_rows_permuted (Z.to_nat iter) a (gen w))|].
    intros s Hs. simpl.
    apply (compute_ts_valid_unit s R N); [| | |done|done].
    - by apply (rows_permuted_rectangular s a).
    - by apply (rows_permuted_binary s a).
    - by rewrite (rows_permuted_shape s a). }
  destruct Ho as [Ho|Ho].
  - assert (Hb : Qle_bool o 0 = true) by by apply Qle_bool_iff.
    rewrite Hb, sum_bool_all_true.
    + rewrite length_fmap, rounds_length. lia.
    + eapply Forall_impl; [exact Hall|]. intros v (q & -> & Hq0 & _). simpl.
      apply Qle_bool_iff. by apply (Qle_trans _ 0).
  - assert (Hb : Qle_bool o 0 = false).
    { destruct (Qle_bool o 0) eqn:Hb; [|done].
      apply Qle_bool_iff in Hb.
      exfalso. apply (Qlt_irrefl 1).
      eapply Qlt_le_trans; [exact Ho|]. by apply (Qle_trans _ 0). }
    rewrite Hb. apply sum_bool_all_false.
    eapply Forall_impl; [exact Hall|]. intros v (q & -> & _ & Hq1). simpl.
    destruct (Qle_bool o q) eqn:Hoq; [|done].
    apply Qle_bool_iff in Hoq.
    exfalso. apply (Qlt_irrefl 1).
    eapply Qlt_le_trans; [exact Ho|]. by apply (Qle_trans _ q).
Qed.

(** X19. A call that makes no iteration draws nothing from the
    generator: with [iter <= 0] the generator state after the call is the
    state before it, on every path. *)
Theorem no_iteration_no_draw (ratings : loc) (obs : option float) (iter : Z)
    (keep_dist : bool) (w : world) :
  iter <= 0 ->
  gen (simulate_ts_dist ratings obs iter keep_dist w).2 = gen w.
Proof.
  intros Hiter.
  destruct (heap w !! ratings) as [a|] eqn:Hratings.
  - assert (Hcases : (keep_dist = true /\ iter < 0)
                     \/ (keep_dist = false \/ 0 <= iter))
      by (destruct keep_dist; lia).
    destruct Hcases as [[-> Hneg]|Hok].
    + by rewrite (simulate_ts_dist_raises _ _ _ a).
    + rewrite (simulate_ts_dist_returns _ _ _ _ a) by done.
      by replace (Z.to_nat iter) with 0%nat by lia.
  - by rewrite simulate_ts_dist_unbound.
Qed.

End simulator_extras.

(** ** The further properties on a run *)

Lemma statistic_taken_on_rearranged_rows_witness :
  exists calls : list matrix,
    ts_calls (@simulate_ts_dist rotating 1%positive None 2 true example_world).2
    = calls ++ ts_calls example_world
    /\ Forall (fun s => Forall2 (≡ₚ) s example_ratings) calls.
Proof.
  apply (@statistic_taken_on_rearranged_rows rotating rotating_permutes
           1%positive None 2 true example_ratings example_world).
  reflexivity.
Defined.

Lemma dist_has_iter_entries_witness :
  exists (b : bundle) (d : list float),
    (@simulate_ts_dist rotating 1%positive None 3 true example_world).1 = inr b
    /\ dist b = Some d
    /\ Z.of_nat (length d) = 3.
Proof.
  apply (@dist_has_iter_entries rotating 1%positive None 3 example_ratings
           example_world).
  - reflexivity.
  - lia.
Defined.

Lemma geq_between_0_and_iter_witness :
  exists b : bundle,
    (@simulate_ts_dist rotating 1%positive None 3 false example_world).1 = inr b
    /\ 0 <= geq b <= 3.
Proof.
  apply (@geq_between_0_and_iter rotating 1%positive None 3 false
           example_ratings example_world).
  - reflexivity.
  - lia.
Defined.

Lemma dist_in_unit_interval_witness :
  exists (b : bundle) (d : list float),
    (@simulate_ts_dist rotating 1%positive None 2 true example_world).1 = inr b
    /\ dist b = Some d
    /\ Forall (fun v => exists q, v = Fin q /\ (0 <= q)%Q /\ (q <= 1)%Q) d.
Proof.
  apply (@dist_in_unit_interval rotating rotating_permutes 1%positive None 2
           example_ratings 3 3 example_world).
  - reflexivity.
  - closed_Forall.
  - closed_Forall.
  - reflexivity.
  - lia.
  - lia.
  - lia.
Defined.

Lemma keep_dist_same_final_state_witness :
  (@simulate_ts_dist rotating 1%positive None 3 true example_world).2
  = (@simulate_ts_dist rotating 1%positive None 3 false example_world).2.
Proof.
  apply (@keep_dist_same_final_state rotating 1%positive None 3
           example_ratings example_world).
  - reflexivity.
  - lia.
Defined.

Lemma nan_reference_counts_nothing_witness :
  exists b : bundle,
    (@simulate_ts_dist rotating 1%positive None 3 false one_rater_world).1
    = inr b
    /\ obs_ts b = NaN
    /\ geq b = 0.
Proof.
  apply (@nan_reference_counts_nothing rotating 1%positive None 3 false
           [[1; 0; 1]] one_rater_world).
  - reflexivity.
  - left. reflexivity.
  - reflexivity.
Defined.

Lemma geq_antitone_in_reference_witness :
  exists b1 b2 : bundle,
    (@simulate_ts_dist rotating 1%positive (Some (Fin (1 # 3))) 3 false
       example_world).1 = inr b1
    /\ (@simulate_ts_dist rotating 1%positive (Some (Fin (5 # 9))) 3 false
          example_world).1 = inr b2
    /\ geq b2 <= geq b1.
Proof.
  apply (@geq_antitone_in_reference rotating 1%positive (1 # 3) (5 # 9) 3 false
           example_ratings example_world).
  - reflexivity.
  - left. reflexivity.
  - unfold Qle. simpl. lia.
Defined.

Lemma constant_rows_all_count_witness :
  exists b : bundle,
    (@simulate_ts_dist rotating 1%positive None 4 true constant_rows_world).1
    = inr b
    /\ geq b = 4.
Proof.
  apply (@constant_rows_all_count rotating rotating_permutes 1%positive 4 true
           [[1; 1; 1]; [0; 0; 0]; [1; 1; 1]] 3 3 constant_rows_world).
  - reflexivity.
  - closed_Forall.
  - reflexivity.
  - lia.
  - lia.
  - repeat (apply Forall_cons_2; [eexists; reflexivity|]). apply Forall_nil_2.
  - lia.
Defined.

Lemma computed_obs_ts_call_witness :
  exists (b : bundle) (w' : @world rotating),
    @simulate_ts_dist rotating 1%positive None 2 false example_world
    = (inr b, w')
    /\ obs_ts b = compute_ts example_ratings
    /\ ts_calls w'
       = reverse (@rounds rotating 2 example_ratings 1%nat).1
         ++ example_ratings :: [].
Proof.
  apply (@computed_obs_ts_call rotating 1%positive 2 false example_ratings
           example_world).
  - reflexivity.
  - left. reflexivity.
Defined.

Lemma reference_outside_unit_interval_witness :
  exists b : bundle,
    (@simulate_ts_dist rotating 1%positive (Some (Fin (3 # 2))) 3 true
       example_world).1 = inr b
    /\ geq b = 0.
Proof.
  apply (@reference_outside_unit_interval rotating rotating_permutes 1%positive
           (3 # 2) 3 true example_ratings 3 3 example_world).
  - reflexivity.
  - closed_Forall.
  - closed_Forall.
  - reflexivity.
  - lia.
  - lia.
  - lia.
  - right. unfold Qlt. simpl. lia.
Defined.

Lemma no_iteration_no_draw_witness :
  gen (@simulate_ts_dist rotating 1%positive None (-2) false example_world).2
  = gen example_world.
Proof.
  apply (@no_iteration_no_draw rotating 1%positive None (-2) false
           example_world).
  lia.
Defined.
